(** * A Sudoku engine: generation, solving, uniqueness counting, validation and hashing

    Shallow embedding of the puzzle engine of the repository
    ([sudoku-engine], [ocr-engine] and [puzzle-hash]) and the proofs of the
    properties its specification states about it. *)

From Stdlib Require Import ZArith List Bool Arith Lia.
From Stdlib Require Import Permutation.
From Stdlib Require String Ascii DecimalString.
Import ListNotations.

(** ** Arrays

    A JavaScript [number[][]] is a list of rows.  Reading past the end yields
    [undefined], which is different from every number: [cell] returns [None]
    there, and the comparison [board[row][col] === num] is then false.  (Reading
    a column of a missing row raises a TypeError in the source; the engine only
    indexes the 81 cells of a grid, so for the 9x9 grids it works on no read
    is out of range.) *)

Definition Board := list (list Z).

Definition cell (board : Board) (row col : nat) : option Z :=
  match nth_error board row with
  | Some r => nth_error r col
  | None => None
  end.

(** [board[row][col] === num] *)
Definition cell_is (board : Board) (row col : nat) (num : Z) : bool :=
  match cell board row col with
  | Some v => Z.eqb v num
  | None => false
  end.

Fixpoint set_nth {T : Type} (i : nat) (v : T) (l : list T) : list T :=
  match l, i with
  | [], _ => []
  | _ :: tl, O => v :: tl
  | hd :: tl, S i' => hd :: set_nth i' v tl
  end.

(** [board[row][col] = v].  The engine writes only to cells it has just read,
    so the write is always inside the grid; outside it the model leaves the
    board as it is. *)
Definition set_cell (board : Board) (row col : nat) (v : Z) : Board :=
  match nth_error board row with
  | Some r => set_nth row (set_nth col v r) board
  | None => board
  end.

(** [board.map((row) => [...row])]: a fresh array of fresh rows with the same
    contents. As a value it is the board itself; the aliasing it removes is
    modelled in the module [Store] below. *)
Definition copy_board (board : Board) : Board := map (fun row => row) board.

Definition digits : list Z := [1; 2; 3; 4; 5; 6; 7; 8; 9]%Z.

(** The 81 coordinates in the order of the nested loops
    [for row in 0..8 { for col in 0..8 { ... } }]. *)
Definition all_positions : list (nat * nat) :=
  flat_map (fun row => map (fun col => (row, col)) (seq 0 9)) (seq 0 9).

(** ** The constraint checker ([isValidMove] of the engine) *)

Definition isValidMove (board : Board) (row col : nat) (num : Z) : bool :=
  (* Check row *)
  forallb (fun x => negb (negb (x =? col) && cell_is board row x num)) (seq 0 9)
  (* Check column *)
  && forallb (fun x => negb (negb (x =? row) && cell_is board x col num)) (seq 0 9)
  (* Check 3x3 box *)
  && (let boxRow := (row / 3) * 3 in
      let boxCol := (col / 3) * 3 in
      forallb (fun i =>
        forallb (fun j =>
          negb ((negb (i =? row) || negb (j =? col)) && cell_is board i j num))
          (seq boxCol 3))
        (seq boxRow 3)).

(** The first cell, in row-major order, with [board[row][col] === 0]. *)
Definition findEmpty (board : Board) : option (nat * nat) :=
  find (fun p => cell_is board (fst p) (snd p) 0) all_positions.

(** ** The solver ([solveBacktrack], [solveSudoku])

    [solveBacktrack] mutates its argument; the model threads the board through
    and returns its final state together with the result.  The recursion is
    bounded by [fuel]; [solveBacktrack_fuel] shows that one unit more than the
    number of empty cells is always enough. *)

(** The loop [for (let num = 1; num <= 9; num++)] at the cell [(row, col)];
    [recurse] is the recursive call. *)
Fixpoint solve_try (recurse : Board -> option (bool * Board)) (row col : nat)
  (nums : list Z) (board : Board) : option (bool * Board) :=
  match nums with
  | [] => Some (false, board)
  | num :: rest =>
    if isValidMove board row col num then
      match recurse (set_cell board row col num) with
      | None => None
      | Some (true, board') => Some (true, board')
      | Some (false, board') => solve_try recurse row col rest (set_cell board' row col 0)
      end
    else solve_try recurse row col rest board
  end.

Fixpoint solveBacktrack (fuel : nat) (board : Board) : option (bool * Board) :=
  match fuel with
  | O => None
  | S fuel' =>
    match findEmpty board with
    | Some (row, col) => solve_try (solveBacktrack fuel') row col digits board
    | None => Some (true, board)
    end
  end.

(** Every grid has at most 81 empty cells among the scanned ones. *)
Definition search_fuel : nat := 82.

Definition solveSudoku (board : Board) : option Board :=
  let solution := copy_board board in
  match solveBacktrack search_fuel solution with
  | Some (true, solved) => Some solved
  | _ => None
  end.

Definition validateSudoku (board : Board) : bool :=
  forallb (fun p =>
    let row := fst p in
    let col := snd p in
    negb (cell_is board row col 0)
    && match cell board row col with
       | Some v => isValidMove board row col v
       | None => true
       end) all_positions.

(** ** The solution counter ([countSolutionsLimited], [hasUniqueSolution]) *)

(** The loop over [num] of [countSolutionsLimited] at the cell [(row, col)]. *)
Fixpoint count_try (recurse : Board -> list Board -> option (Board * list Board))
  (limit : nat) (row col : nat) (nums : list Z) (board : Board) (solutions : list Board)
  : option (Board * list Board) :=
  match nums with
  | [] => Some (board, solutions)
  | num :: rest =>
    if isValidMove board row col num then
      match recurse (set_cell board row col num) solutions with
      | None => None
      | Some (board', solutions') =>
        let board'' := set_cell board' row col 0 in
        if limit <=? length solutions' then Some (board'', solutions')
        else count_try recurse limit row col rest board'' solutions'
      end
    else count_try recurse limit row col rest board solutions
  end.

Fixpoint countSolutionsLimited (fuel : nat) (board : Board) (solutions : list Board)
  (limit : nat) : option (Board * list Board) :=
  match fuel with
  | O => None
  | S fuel' =>
    if limit <=? length solutions then Some (board, solutions)
    else
      match findEmpty board with
      | Some (row, col) =>
        count_try (fun b s => countSolutionsLimited fuel' b s limit) limit row col
          digits board solutions
      | None => Some (board, solutions ++ [copy_board board])
      end
  end.

Definition hasUniqueSolution (board : Board) : bool :=
  let boardCopy := copy_board board in
  match countSolutionsLimited search_fuel boardCopy [] 2 with
  | Some (_, solutions) => length solutions =? 1
  | None => false
  end.

Definition emptyBoard : Board := repeat (repeat 0%Z 9) 9.

(** ** The random source and [shuffleArray]

    [Math.random()] is an external source.  [outcome g k] stands for the value
    its [k]-th call returns, given as the index it selects:
    [Math.floor(Math.random() * n)] is [outcome g k mod n], which ranges over
    exactly [0 .. n-1] as in the source. [drawn] counts the calls made. *)

Record Rng : Type := mkRng { outcome : nat -> nat; drawn : nat }.

Definition random_index (n : nat) (g : Rng) : nat * Rng :=
  (outcome g (drawn g) mod n, mkRng (outcome g) (S (drawn g))).

(** [[a[i], a[j]] = [a[j], a[i]]] *)
Definition swap {T : Type} (a : list T) (i j : nat) : list T :=
  match nth_error a i, nth_error a j with
  | Some x, Some y => set_nth i y (set_nth j x a)
  | _, _ => a
  end.

(** The loop [for (let i = n; i > 0; i--)] of [shuffleArray]. *)
Fixpoint shuffle_loop {T : Type} (i : nat) (shuffled : list T) (g : Rng) : list T * Rng :=
  match i with
  | O => (shuffled, g)
  | S i' =>
    let (j, g') := random_index (i + 1) g in
    shuffle_loop i' (swap shuffled i j) g'
  end.

(** [shuffleArray] copies its argument and shuffles the copy: the argument
    itself is left as it was. *)
Definition shuffleArray {T : Type} (array : list T) (g : Rng) : list T * Rng :=
  shuffle_loop (length array - 1) array g.

(** ** The completer ([generateCompleteSudoku]) *)

Definition fillBox (board : Board) (row col : nat) (g : Rng) : Board * Rng :=
  let (numbers, g') := shuffleArray digits g in
  (fold_left (fun b index =>
     set_cell b (row + index / 3) (col + index mod 3) (nth index numbers 0%Z))
     (seq 0 9) board, g').

Definition fillDiagonalBoxes (board : Board) (g : Rng) : Board * Rng :=
  fold_left (fun (st : Board * Rng) box => fillBox (fst st) (box * 3) (box * 3) (snd st))
    (seq 0 3) (board, g).

(** The loop [for (const num of numbers)] of [fillBoard] at the cell [(row, col)]. *)
Fixpoint fill_try (recurse : Board -> Rng -> option (bool * Board * Rng)) (row col : nat)
  (nums : list Z) (board : Board) (g : Rng) : option (bool * Board * Rng) :=
  match nums with
  | [] => Some (false, board, g)
  | num :: rest =>
    if isValidMove board row col num then
      match recurse (set_cell board row col num) g with
      | None => None
      | Some (true, board', g') => Some (true, board', g')
      | Some (false, board', g') => fill_try recurse row col rest (set_cell board' row col 0) g'
      end
    else fill_try recurse row col rest board g
  end.

Fixpoint fillBoard (fuel : nat) (board : Board) (g : Rng) : option (bool * Board * Rng) :=
  match fuel with
  | O => None
  | S fuel' =>
    match findEmpty board with
    | Some (row, col) =>
      let (numbers, g0) := shuffleArray digits g in
      fill_try (fillBoard fuel') row col numbers board g0
    | None => Some (true, board, g)
    end
  end.

(** The result of [fillBoard] is dropped by the source: the board is returned
    in whatever state the search left it. *)
Definition generateCompleteSudoku (g : Rng) : Board * Rng :=
  let board := emptyBoard in
  let (board1, g1) := fillDiagonalBoxes board g in
  match fillBoard search_fuel board1 g1 with
  | Some (_, board2, g2) => (board2, g2)
  | None => (board1, g1)
  end.

(** ** Clue removal ([createPuzzleFromSolution]) *)

Definition read (board : Board) (row col : nat) : Z :=
  match cell board row col with
  | Some v => v
  | None => 0%Z
  end.

(** The loop [for (i = 0; i < positions.length && removed < toRemove; i++)],
    on the positions still to visit. *)
Fixpoint removeClues (positions : list (nat * nat)) (toRemove removed : Z) (board : Board)
  : Board * Z :=
  match positions with
  | [] => (board, removed)
  | (row, col) :: rest =>
    if (removed <? toRemove)%Z then
      let originalValue := read board row col in
      let board1 := set_cell board row col 0 in
      if hasUniqueSolution board1 then removeClues rest toRemove (removed + 1)%Z board1
      else removeClues rest toRemove removed (set_cell board1 row col originalValue)
    else (board, removed)
  end.

(** The three calls [shuffleArray(positions)] discard their results: they draw
    from the random source and leave [positions] in row-major order. *)
Definition createPuzzleFromSolution (solution : Board) (targetClues : Z) (g : Rng)
  : Board * Rng :=
  let board := copy_board solution in
  let positions := all_positions in
  let g3 := fold_left (fun g' _ => snd (shuffleArray positions g')) (seq 0 3) g in
  let toRemove := (81 - targetClues)%Z in
  (fst (removeClues positions toRemove 0%Z board), g3).

(** ** The generator ([generateSudoku]) *)

Inductive Difficulty : Type := easy | medium | hard | unknown.

Record GenerationOptions : Type := mkOptions {
  opt_clues : Z;
  opt_difficulty : Difficulty;
  ensureUnique : bool;
  ensureSolvable : bool
}.

(** The [id] of a puzzle is the clock ([Date.now()]); no property of the engine
    reads it and the model leaves it out. *)
Record Puzzle : Type := mkPuzzle {
  board : Board;
  solution : Board;
  difficulty : Difficulty;
  clues : Z
}.

(** [generateSudoku] calls itself when the uniqueness check fails.  [fuel]
    bounds the number of nested calls; [None] means that the recursion is
    still going on after [fuel] calls. *)
Fixpoint generateSudoku (fuel : nat) (options : GenerationOptions) (g : Rng)
  : option (Puzzle * Rng) :=
  match fuel with
  | O => None
  | S fuel' =>
    let (solution, g1) := generateCompleteSudoku g in
    let (board, g2) := createPuzzleFromSolution solution (opt_clues options) g1 in
    if ensureUnique options && negb (hasUniqueSolution board) then
      generateSudoku fuel' options g2
    else
      Some (mkPuzzle board solution (opt_difficulty options) (opt_clues options), g2)
  end.

(** ** The fingerprint ([createPuzzleHash]) *)

Module Hash.
Import String Ascii DecimalString.

(** [Number.prototype.toString] on an integer: its decimal digits, with a
    leading minus sign for a negative one. *)
Definition number_to_string (z : Z) : string :=
  NilEmpty.string_of_int (Z.to_int z).

(** [ToInt32]: the value modulo 2^32, read as a signed 32-bit integer. *)
Definition toInt32 (z : Z) : Z :=
  ((z + 2 ^ 31) mod 2 ^ 32 - 2 ^ 31)%Z.

(** [a << k] and [a & b] work on the 32-bit readings of their operands. *)
Definition shl32 (a k : Z) : Z := toInt32 (Z.shiftl (toInt32 a) k).
Definition and32 (a b : Z) : Z := toInt32 (Z.land (toInt32 a) (toInt32 b)).

(** [s.charCodeAt(i)] for each [i], in order. *)
Definition charCodes (s : string) : list Z :=
  map (fun c => Z.of_N (N_of_ascii c)) (list_ascii_of_string s).

(** [board.map((row) => row.join("")).join("")] *)
Definition boardString (board : Board) : string :=
  concat "" (map (fun row => concat "" (map number_to_string row)) board).

(** One turn of the loop: [hash = (hash << 5) - hash + char; hash = hash & hash]. *)
Definition hash_step (hash char : Z) : Z :=
  let hash := (shl32 hash 5 - hash + char)%Z in
  and32 hash hash.

Definition createPuzzleHash (board : Board) : string :=
  number_to_string (fold_left hash_step (charCodes (boardString board)) 0%Z).
End Hash.

(** ** The validation of an extracted board ([ocr-engine]) *)

Module Ocr.
Import String.

(** [isValidMove] of the OCR module: it scans the whole row, column and box,
    the cell itself included. *)
Definition isValidMove (board : Board) (row col : nat) (num : Z) : bool :=
  forallb (fun x => negb (cell_is board row x num)) (seq 0 9)
  && forallb (fun x => negb (cell_is board x col num)) (seq 0 9)
  && (let boxRow := (row / 3) * 3 in
      let boxCol := (col / 3) * 3 in
      forallb (fun i =>
        forallb (fun j => negb (cell_is board i j num)) (seq boxCol 3))
        (seq boxRow 3)).

(** [hasConflicts] works in place on the caller's board: it clears each filled
    cell, tests it and writes it back.  The model returns the board as the
    scan leaves it.  It is only called on a board that has passed the 9x9
    check, so every cell it reads exists. *)
Fixpoint hasConflicts_from (positions : list (nat * nat)) (board : Board) : bool * Board :=
  match positions with
  | [] => (false, board)
  | (row, col) :: rest =>
    match cell board row col with
    | Some num =>
      if negb (num =? 0)%Z then
        let board1 := set_cell board row col 0 in
        let isValid := isValidMove board1 row col num in
        let board2 := set_cell board1 row col num in
        if negb isValid then (true, board2) else hasConflicts_from rest board2
      else hasConflicts_from rest board
    | None => hasConflicts_from rest board
    end
  end.

Definition hasConflicts (board : Board) : bool * Board :=
  hasConflicts_from all_positions board.

(** "Mock implementation - should count actual solutions" *)
Definition countSolutions (board : Board) : Z := 1%Z.

(** What a run of the validator can touch besides the board: the list stored
    under the key [puzzleHashes] of [localStorage], and the solver.  To state
    which runs reach the solver, the world also records the boards handed to
    [solveSudoku], the latest first. *)
Record World : Type := mkWorld {
  puzzleHashes : list string;
  solver_calls : list Board
}.

Record DuplicateCheck : Type := mkDuplicateCheck {
  dc_isDuplicate : bool;
  dc_duplicateMessage : option string
}.

Definition checkForDuplicate (board : Board) (w : World) : DuplicateCheck * World :=
  let puzzleHash := Hash.createPuzzleHash board in
  let existingHashes := puzzleHashes w in
  if existsb (String.eqb puzzleHash) existingHashes then
    (mkDuplicateCheck true
       (Some "⚠️ This puzzle appears to be a duplicate of one you've uploaded before"%string), w)
  else
    let pushed := (existingHashes ++ [puzzleHash]) in
    let kept :=
      if 1000 <? List.length pushed then skipn (List.length pushed - 1000) pushed
      else pushed in
    (mkDuplicateCheck false None, mkWorld kept (solver_calls w)).

Definition call_solveSudoku (board : Board) (w : World) : option Board * World :=
  (solveSudoku board, mkWorld (puzzleHashes w) (board :: solver_calls w)).

Record Validation : Type := mkValidation {
  isValid : bool;
  hasMultipleSolutions : bool;
  message : string;
  v_solution : option Board;
  isDuplicate : option bool;
  duplicateMessage : option string
}.

Definition structure_ok (board : Board) : bool :=
  (List.length board =? 9) && forallb (fun row => List.length row =? 9) board.

Definition numbers_ok (board : Board) : bool :=
  forallb (fun p =>
    match cell board (fst p) (snd p) with
    | Some c => negb ((c <? 0)%Z || (c >? 9)%Z)
    | None => true
    end) all_positions.

Definition validateExtractedPuzzle (board : Board) (w : World)
  : Validation * Board * World :=
  (* Basic validation *)
  if negb (structure_ok board) then
    (mkValidation false false "Invalid board structure detected"%string None None None, board, w)
  (* Check for valid numbers *)
  else if negb (numbers_ok board) then
    (mkValidation false false "Invalid numbers detected in puzzle"%string None None None, board, w)
  else
    (* Check for conflicts *)
    let (conflicts, board1) := hasConflicts board in
    if conflicts then
      (mkValidation false false "Puzzle contains conflicts - please check the image"%string
         None None None, board1, w)
    else
      (* Check for duplicates *)
      let (duplicateCheck, w1) := checkForDuplicate board1 w in
      (* Solve the puzzle to get the solution *)
      let (solved, w2) := call_solveSudoku board1 w1 in
      match solved with
      | None =>
        (mkValidation false false "Puzzle has no valid solution"%string None
           (Some (dc_isDuplicate duplicateCheck)) (dc_duplicateMessage duplicateCheck),
         board1, w2)
      | Some sol =>
        let solutionCount := countSolutions board1 in
        if (solutionCount >? 1)%Z then
          (mkValidation true true
             "Puzzle extracted successfully, but may have multiple solutions"%string (Some sol)
             (Some (dc_isDuplicate duplicateCheck)) (dc_duplicateMessage duplicateCheck),
           board1, w2)
        else
          (mkValidation true false
             "Puzzle extracted successfully with unique solution"%string (Some sol)
             (Some (dc_isDuplicate duplicateCheck)) (dc_duplicateMessage duplicateCheck),
           board1, w2)
      end.
End Ocr.

(** ** The store: arrays as shared, mutable objects

    In the source a grid is an array of references to row arrays, and
    [board[row][col] = v] updates a row array in place, for every holder of a
    reference to it.  The functions above thread the contents of one board;
    this module writes the solver over an explicit store, so that what a call
    does to the arrays of its caller can be stated.  [Heap] holds the row arrays
    allocated so far, by address; a [Grid] is the list of the addresses of its
    rows. *)

Module Store.
Definition Heap := list (list Z).
Definition Grid := list nat.

(** The contents of a grid in a heap. *)
Definition deref (h : Heap) (g : Grid) : Board :=
  map (fun a => nth a h []) g.

Definition cell (h : Heap) (g : Grid) (row col : nat) : option Z :=
  match nth_error g row with
  | Some a =>
    match nth_error h a with
    | Some r => nth_error r col
    | None => None
    end
  | None => None
  end.

Definition cell_is (h : Heap) (g : Grid) (row col : nat) (num : Z) : bool :=
  match cell h g row col with
  | Some v => Z.eqb v num
  | None => false
  end.

(** [board[row][col] = v]: the row array at its address is updated. *)
Definition set_cell (h : Heap) (g : Grid) (row col : nat) (v : Z) : Heap :=
  match nth_error g row with
  | Some a =>
    match nth_error h a with
    | Some r => set_nth a (set_nth col v r) h
    | None => h
    end
  | None => h
  end.

(** [board.map((row) => [...row])]: one new row array per row, at the next
    free addresses, and a new outer array that refers to them. *)
Definition copy_board (h : Heap) (g : Grid) : Heap * Grid :=
  (h ++ deref h g, seq (length h) (length g)).

Definition isValidMove (h : Heap) (g : Grid) (row col : nat) (num : Z) : bool :=
  forallb (fun x => negb (negb (x =? col) && cell_is h g row x num)) (seq 0 9)
  && forallb (fun x => negb (negb (x =? row) && cell_is h g x col num)) (seq 0 9)
  && (let boxRow := (row / 3) * 3 in
      let boxCol := (col / 3) * 3 in
      forallb (fun i =>
        forallb (fun j =>
          negb ((negb (i =? row) || negb (j =? col)) && cell_is h g i j num))
          (seq boxCol 3))
        (seq boxRow 3)).

Definition findEmpty (h : Heap) (g : Grid) : option (nat * nat) :=
  find (fun p => cell_is h g (fst p) (snd p) 0) all_positions.

Fixpoint solve_try (recurse : Heap -> option (bool * Heap)) (g : Grid) (row col : nat)
  (nums : list Z) (h : Heap) : option (bool * Heap) :=
  match nums with
  | [] => Some (false, h)
  | num :: rest =>
    if isValidMove h g row col num then
      match recurse (set_cell h g row col num) with
      | None => None
      | Some (true, h') => Some (true, h')
      | Some (false, h') => solve_try recurse g row col rest (set_cell h' g row col 0)
      end
    else solve_try recurse g row col rest h
  end.

Fixpoint solveBacktrack (fuel : nat) (h : Heap) (g : Grid) : option (bool * Heap) :=
  match fuel with
  | O => None
  | S fuel' =>
    match findEmpty h g with
    | Some (row, col) => solve_try (fun h' => solveBacktrack fuel' h' g) g row col digits h
    | None => Some (true, h)
    end
  end.

(** [solveSudoku]: the result is the new grid or [null], and the heap as the
    call leaves it. *)
Definition solveSudoku (h : Heap) (board : Grid) : option Grid * Heap :=
  let (h1, solution) := copy_board h board in
  match solveBacktrack search_fuel h1 solution with
  | Some (true, h2) => (Some solution, h2)
  | Some (false, h2) => (None, h2)
  | None => (None, h1)
  end.
End Store.

(** * Properties *)

(** ** Arrays and cells *)

Section SetNth.
Variable T : Type.

Lemma set_nth_length (i : nat) (v : T) (l : list T) :
  length (set_nth i v l) = length l.
Proof.
  revert i; induction l as [|x l IH]; intros [|i]; simpl; auto.
Qed.

Lemma nth_error_set_nth_eq (i : nat) (v : T) (l : list T) :
  i < length l -> nth_error (set_nth i v l) i = Some v.
Proof.
  revert i; induction l as [|x l IH]; intros [|i] H; simpl in *; try lia; auto.
  apply IH; lia.
Qed.

Lemma nth_error_set_nth_neq (i j : nat) (v : T) (l : list T) :
  i <> j -> nth_error (set_nth i v l) j = nth_error l j.
Proof.
  revert i j; induction l as [|x l IH]; intros [|i] [|j] H; simpl; auto.
  congruence.
Qed.

Lemma set_nth_same (i : nat) (v : T) (l : list T) :
  nth_error l i = Some v -> set_nth i v l = l.
Proof.
  revert i; induction l as [|x l IH]; intros [|i] H; simpl in *; auto.
  - congruence.
  - f_equal; auto.
Qed.

Lemma set_nth_set_nth (i : nat) (v w : T) (l : list T) :
  set_nth i v (set_nth i w l) = set_nth i v l.
Proof.
  revert i; induction l as [|x l IH]; intros [|i]; simpl; auto.
  f_equal; auto.
Qed.

Lemma set_nth_In (i : nat) (v x : T) (l : list T) :
  In x (set_nth i v l) -> x = v \/ In x l.
Proof.
  revert i; induction l as [|y l IH]; intros [|i]; simpl; auto.
  - intros [H|H]; auto.
  - intros [H|H]; auto. destruct (IH _ H); auto.
Qed.
End SetNth.

(** A grid in the sense of the specification: nine rows of nine cells. *)
Definition grid_shape (b : Board) : Prop :=
  length b = 9 /\ Forall (fun r => length r = 9) b.

Lemma cell_Some_iff (b : Board) (row col : nat) :
  grid_shape b -> (row < 9 /\ col < 9 <-> exists v, cell b row col = Some v).
Proof.
  intros [Hl Hr]. unfold cell. split.
  - intros [H1 H2].
    destruct (nth_error b row) as [r|] eqn:E.
    + assert (length r = 9).
      { rewrite Forall_forall in Hr. apply Hr. eapply nth_error_In; eauto. }
      destruct (nth_error r col) eqn:E2; eauto.
      apply nth_error_None in E2. lia.
    + apply nth_error_None in E. lia.
  - intros [v H].
    destruct (nth_error b row) as [r|] eqn:E; try discriminate.
    assert (length r = 9).
    { rewrite Forall_forall in Hr. apply Hr. eapply nth_error_In; eauto. }
    split.
    + rewrite <- Hl. apply nth_error_Some. congruence.
    + rewrite <- H0. apply nth_error_Some. congruence.
Qed.

Lemma set_cell_shape (b : Board) (row col : nat) (v : Z) :
  grid_shape b -> grid_shape (set_cell b row col v).
Proof.
  intros [Hl Hr]. unfold set_cell.
  destruct (nth_error b row) as [r|] eqn:E; [|split; auto].
  split.
  - rewrite set_nth_length; auto.
  - rewrite Forall_forall in *. intros x Hx.
    apply set_nth_In in Hx. destruct Hx as [->|Hx]; auto.
    rewrite set_nth_length. apply Hr. eapply nth_error_In; eauto.
Qed.

Lemma cell_set_cell_eq (b : Board) (row col : nat) (v w : Z) :
  cell b row col = Some w -> cell (set_cell b row col v) row col = Some v.
Proof.
  unfold cell, set_cell. intros H.
  destruct (nth_error b row) as [r|] eqn:E; try discriminate.
  rewrite nth_error_set_nth_eq.
  - apply nth_error_set_nth_eq. apply nth_error_Some. congruence.
  - apply nth_error_Some. congruence.
Qed.

Lemma cell_set_cell_neq (b : Board) (row col row' col' : nat) (v : Z) :
  (row, col) <> (row', col') ->
  cell (set_cell b row col v) row' col' = cell b row' col'.
Proof.
  unfold cell, set_cell. intros H.
  destruct (nth_error b row) as [r|] eqn:E; auto.
  destruct (Nat.eq_dec row row') as [->|Hn].
  - rewrite nth_error_set_nth_eq by (apply nth_error_Some; congruence).
    rewrite E. apply nth_error_set_nth_neq. congruence.
  - rewrite nth_error_set_nth_neq; auto.
Qed.

Lemma set_cell_same (b : Board) (row col : nat) (v : Z) :
  cell b row col = Some v -> set_cell b row col v = b.
Proof.
  unfold cell, set_cell. intros H.
  destruct (nth_error b row) as [r|] eqn:E; auto.
  apply set_nth_same. rewrite E. f_equal. symmetry. apply set_nth_same; auto.
Qed.

Lemma set_cell_set_cell (b : Board) (row col : nat) (v w : Z) :
  set_cell (set_cell b row col w) row col v = set_cell b row col v.
Proof.
  unfold set_cell.
  destruct (nth_error b row) as [r|] eqn:E; [|rewrite E; auto].
  rewrite nth_error_set_nth_eq by (apply nth_error_Some; congruence).
  rewrite set_nth_set_nth. f_equal. apply set_nth_set_nth.
Qed.

(** Writing a value and writing back what was there restores the board. *)
Lemma set_cell_restore (b : Board) (row col : nat) (v w : Z) :
  cell b row col = Some w -> set_cell (set_cell b row col v) row col w = b.
Proof.
  intros H. rewrite set_cell_set_cell. apply set_cell_same; auto.
Qed.

Lemma copy_board_id (b : Board) : copy_board b = b.
Proof. unfold copy_board. apply map_id. Qed.

Lemma cell_is_true (b : Board) (row col : nat) (num : Z) :
  cell_is b row col num = true <-> cell b row col = Some num.
Proof.
  unfold cell_is. destruct (cell b row col) as [v|].
  - rewrite Z.eqb_eq. split; congruence.
  - split; discriminate.
Qed.

Lemma in_all_positions (row col : nat) :
  In (row, col) all_positions <-> row < 9 /\ col < 9.
Proof.
  unfold all_positions. rewrite in_flat_map. split.
  - intros [r [Hr Hc]]. apply in_map_iff in Hc. destruct Hc as [c [Heq Hc]].
    inversion Heq; subst. apply in_seq in Hr, Hc. lia.
  - intros [H1 H2]. exists row. split.
    + apply in_seq; lia.
    + apply in_map_iff. exists col. split; auto. apply in_seq; lia.
Qed.

Lemma findEmpty_Some (b : Board) (row col : nat) :
  findEmpty b = Some (row, col) ->
  cell b row col = Some 0%Z /\ row < 9 /\ col < 9.
Proof.
  unfold findEmpty. intros H. apply find_some in H. simpl in H.
  destruct H as [H1 H2]. split.
  - apply cell_is_true; auto.
  - apply in_all_positions; auto.
Qed.

Lemma findEmpty_None (b : Board) (row col : nat) :
  findEmpty b = None -> row < 9 -> col < 9 -> cell b row col <> Some 0%Z.
Proof.
  unfold findEmpty. intros H Hr Hc Hcell.
  apply cell_is_true in Hcell.
  pose proof (find_none _ _ H (row, col)) as Hn. simpl in Hn.
  rewrite Hn in Hcell; [discriminate|]. apply in_all_positions; auto.
Qed.

(** ** Termination of the searches

    The number of empty cells strictly decreases along the recursion, and a
    failed call hands the board back as it received it. *)

Definition empties (b : Board) : nat :=
  length (filter (fun p => cell_is b (fst p) (snd p) 0) all_positions).

Lemma filter_length_lt {T : Type} (f f' : T -> bool) (x : T) (l : list T) :
  (forall y, f' y = true -> f y = true) ->
  In x l -> f x = true -> f' x = false ->
  length (filter f' l) < length (filter f l).
Proof.
  intros Hsub Hin Hf Hf'.
  assert (Hle : forall l', length (filter f' l') <= length (filter f l')).
  { induction l' as [|y l' IH]; simpl; auto.
    destruct (f' y) eqn:E.
    - rewrite (Hsub _ E). simpl. lia.
    - destruct (f y); simpl; lia. }
  induction l as [|y l IH]; simpl in *; [contradiction|].
  destruct Hin as [->|Hin].
  - rewrite Hf, Hf'. simpl. specialize (Hle l). lia.
  - specialize (IH Hin). destruct (f' y) eqn:E.
    + rewrite (Hsub _ E). simpl. lia.
    + destruct (f y); simpl; lia.
Qed.

Lemma empties_le (b : Board) : empties b <= 81.
Proof.
  unfold empties.
  etransitivity; [apply filter_length_le|]. reflexivity.
Qed.

Lemma empties_set_cell (b : Board) (row col : nat) (v : Z) :
  cell b row col = Some 0%Z -> v <> 0%Z -> row < 9 -> col < 9 ->
  empties (set_cell b row col v) < empties b.
Proof.
  intros Hc Hv Hr Hcol. unfold empties.
  apply filter_length_lt with (x := (row, col)).
  - intros [r c] H. simpl in *.
    destruct (Nat.eq_dec r row) as [->|Hn1].
    + destruct (Nat.eq_dec c col) as [->|Hn2].
      * apply cell_is_true; auto.
      * unfold cell_is in *. rewrite cell_set_cell_neq in H by congruence. auto.
    + unfold cell_is in *. rewrite cell_set_cell_neq in H by congruence. auto.
  - apply in_all_positions; auto.
  - simpl. apply cell_is_true; auto.
  - simpl. unfold cell_is. rewrite (cell_set_cell_eq _ _ _ v _ Hc).
    apply Z.eqb_neq; auto.
Qed.

Lemma digits_nonzero (num : Z) : In num digits -> num <> 0%Z.
Proof. unfold digits. simpl. intros H. intuition lia. Qed.

Lemma solve_try_total (recurse : Board -> option (bool * Board)) (b : Board)
  (row col : nat) :
  cell b row col = Some 0%Z ->
  (forall num, num <> 0%Z ->
     exists res b', recurse (set_cell b row col num) = Some (res, b')
                    /\ (res = false -> b' = set_cell b row col num)) ->
  forall nums, (forall num, In num nums -> num <> 0%Z) ->
  exists res b', solve_try recurse row col nums b = Some (res, b') /\ (res = false -> b' = b).
Proof.
  intros Hc Hrec nums. induction nums as [|num rest IH]; intros Hnz; simpl.
  - eauto.
  - assert (Hrest : forall n, In n rest -> n <> 0%Z) by (intros; apply Hnz; simpl; auto).
    destruct (isValidMove b row col num); auto.
    destruct (Hrec num) as (res & b' & Heq & Hb'); [apply Hnz; simpl; auto|].
    rewrite Heq. destruct res.
    + exists true, b'. split; [reflexivity | discriminate].
    + rewrite Hb' by reflexivity. rewrite set_cell_restore by auto. auto.
Qed.

Lemma solveBacktrack_S (fuel : nat) (b : Board) :
  solveBacktrack (S fuel) b =
  match findEmpty b with
  | Some (row, col) => solve_try (solveBacktrack fuel) row col digits b
  | None => Some (true, b)
  end.
Proof. reflexivity. Qed.


Lemma fillBoard_S (fuel : nat) (b : Board) (g : Rng) :
  fillBoard (S fuel) b g =
  match findEmpty b with
  | Some (row, col) =>
    let (numbers, g0) := shuffleArray digits g in
    fill_try (fillBoard fuel) row col numbers b g0
  | None => Some (true, b, g)
  end.
Proof. reflexivity. Qed.

Lemma solveBacktrack_total (fuel : nat) : forall b,
  empties b < fuel ->
  exists res b', solveBacktrack fuel b = Some (res, b') /\ (res = false -> b' = b).
Proof.
  induction fuel as [|fuel IH]; intros b Hlt; [lia|]. rewrite solveBacktrack_S.
  destruct (findEmpty b) as [[row col]|] eqn:E.
  - apply findEmpty_Some in E. destruct E as (Hc & Hr & Hcol).
    apply solve_try_total; [exact Hc | | apply digits_nonzero].
    intros num Hnum. apply IH.
    pose proof (empties_set_cell b row col num Hc Hnum Hr Hcol). lia.
  - exists true, b. split; [reflexivity | discriminate].
Qed.

(** [solveSudoku] always comes to an end: its fuel is never used up. *)
Lemma solveBacktrack_fuel (b : Board) : solveBacktrack search_fuel b <> None.
Proof.
  destruct (solveBacktrack_total search_fuel b) as (res & b' & H & _).
  - pose proof (empties_le b). unfold search_fuel. lia.
  - congruence.
Qed.




(** ** The constraint checker, as a statement about peers

    Two cells see each other when they share a row, a column or a 3x3 box. *)

Definition same_box (r c r' c' : nat) : Prop := r / 3 = r' / 3 /\ c / 3 = c' / 3.

Definition sees (r c r' c' : nat) : Prop := r = r' \/ c = c' \/ same_box r c r' c'.

Definition peer (r c r' c' : nat) : Prop := (r, c) <> (r', c') /\ sees r c r' c'.

Ltac div3 x :=
  pose proof (Nat.div_mod_eq x 3); pose proof (Nat.mod_upper_bound x 3).

Lemma in_box_seq (i r : nat) : In i (seq (r / 3 * 3) 3) <-> i / 3 = r / 3.
Proof.
  rewrite in_seq. div3 i. div3 r. split; intros; lia.
Qed.

Lemma sees_sym (r c r' c' : nat) : sees r c r' c' -> sees r' c' r c.
Proof. unfold sees, same_box. intuition. Qed.

Lemma peer_sym (r c r' c' : nat) : peer r c r' c' -> peer r' c' r c.
Proof.
  intros [H1 H2]. split; [congruence | apply sees_sym; auto].
Qed.

Lemma cell_is_false (b : Board) (row col : nat) (num : Z) :
  cell_is b row col num = false <-> cell b row col <> Some num.
Proof.
  rewrite <- cell_is_true. destruct (cell_is b row col num); split; congruence.
Qed.

Lemma isValidMove_true_iff (b : Board) (row col : nat) (num : Z) :
  row < 9 -> col < 9 ->
  (isValidMove b row col num = true <->
   forall r' c', r' < 9 -> c' < 9 -> peer row col r' c' -> cell b r' c' <> Some num).
Proof.
  intros Hr Hc. unfold isValidMove. cbv zeta.
  rewrite !andb_true_iff, !forallb_forall. split.
  - intros [[Hrow Hcol] Hbox] r' c' Hr' Hc' [Hne Hsees].
    apply cell_is_false.
    destruct (Nat.eq_dec r' row) as [->|Hn1].
    + specialize (Hrow c'). rewrite in_seq in Hrow. specialize (Hrow ltac:(lia)).
      destruct (Nat.eqb_spec c' col) as [He|Hn2]; [subst; congruence|].
      simpl in Hrow. destruct (cell_is b row c' num); auto.
    + destruct (Nat.eq_dec c' col) as [->|Hn2].
      * specialize (Hcol r'). rewrite in_seq in Hcol. specialize (Hcol ltac:(lia)).
        destruct (Nat.eqb_spec r' row) as [He|_]; [subst; congruence|].
        simpl in Hcol. destruct (cell_is b r' col num); auto.
      * destruct Hsees as [H|[H|[H1 H2]]]; try congruence.
        specialize (Hbox r'). rewrite in_box_seq in Hbox. specialize (Hbox (eq_sym H1)).
        rewrite forallb_forall in Hbox. specialize (Hbox c').
        rewrite in_box_seq in Hbox. specialize (Hbox (eq_sym H2)).
        destruct (Nat.eqb_spec r' row) as [He|_]; [subst; congruence|].
        simpl in Hbox. destruct (cell_is b r' c' num); auto.
  - intros H. repeat split.
    + intros x Hx. rewrite in_seq in Hx.
      destruct (Nat.eqb_spec x col) as [He|Hn]; auto. simpl.
      rewrite (proj2 (cell_is_false b row x num)); auto.
      apply H; try lia. split; [congruence | left; auto].
    + intros x Hx. rewrite in_seq in Hx.
      destruct (Nat.eqb_spec x row) as [He|Hn]; auto. simpl.
      rewrite (proj2 (cell_is_false b x col num)); auto.
      apply H; try lia. split; [congruence | right; left; auto].
    + intros i Hi. rewrite in_box_seq in Hi. rewrite forallb_forall. intros j Hj.
      rewrite in_box_seq in Hj.
      destruct (Nat.eqb_spec i row) as [He1|Hn1];
        destruct (Nat.eqb_spec j col) as [He2|Hn2]; simpl; auto;
        rewrite (proj2 (cell_is_false b _ _ num)); auto;
        (apply H; [div3 i; div3 row; lia | div3 j; div3 col; lia
                  | split; [congruence | right; right; split; auto]]).
Qed.

(** The checker of the OCR module looks at the cell itself as well. *)
Lemma ocr_isValidMove_true_iff (b : Board) (row col : nat) (num : Z) :
  row < 9 -> col < 9 ->
  (Ocr.isValidMove b row col num = true <->
   forall r' c', r' < 9 -> c' < 9 -> sees row col r' c' -> cell b r' c' <> Some num).
Proof.
  intros Hr Hc. unfold Ocr.isValidMove. cbv zeta.
  rewrite !andb_true_iff, !forallb_forall. split.
  - intros [[Hrow Hcol] Hbox] r' c' Hr' Hc' Hsees.
    apply cell_is_false.
    destruct Hsees as [<-|[<-|[H1 H2]]].
    + specialize (Hrow c'). rewrite in_seq in Hrow. specialize (Hrow ltac:(lia)).
      destruct (cell_is b row c' num); auto.
    + specialize (Hcol r'). rewrite in_seq in Hcol. specialize (Hcol ltac:(lia)).
      destruct (cell_is b r' col num); auto.
    + specialize (Hbox r'). rewrite in_box_seq in Hbox. specialize (Hbox (eq_sym H1)).
      rewrite forallb_forall in Hbox. specialize (Hbox c').
      rewrite in_box_seq in Hbox. specialize (Hbox (eq_sym H2)).
      destruct (cell_is b r' c' num); auto.
  - intros H. repeat split.
    + intros x Hx. rewrite in_seq in Hx.
      rewrite (proj2 (cell_is_false b row x num)); auto.
      apply H; try lia. left; auto.
    + intros x Hx. rewrite in_seq in Hx.
      rewrite (proj2 (cell_is_false b x col num)); auto.
      apply H; try lia. right; left; auto.
    + intros i Hi. rewrite in_box_seq in Hi. rewrite forallb_forall. intros j Hj.
      rewrite in_box_seq in Hj.
      rewrite (proj2 (cell_is_false b _ _ num)); auto.
      apply H; [div3 i; div3 row; lia | div3 j; div3 col; lia
               | right; right; split; auto].
Qed.

(** ** The conflict scan of the validator *)

(** A grid is conflicting when two cells that see each other hold the same
    non-zero digit. *)
Definition conflicting (b : Board) : Prop :=
  exists r c r' c' d,
    r < 9 /\ c < 9 /\ r' < 9 /\ c' < 9 /\ peer r c r' c' /\ d <> 0%Z
    /\ cell b r c = Some d /\ cell b r' c' = Some d.

(** What one turn of the scan decides at the cell [p]. *)
Definition conflict_at (b : Board) (p : nat * nat) : bool :=
  match cell b (fst p) (snd p) with
  | Some num =>
    negb (num =? 0)%Z && negb (Ocr.isValidMove (set_cell b (fst p) (snd p) 0) (fst p) (snd p) num)
  | None => false
  end.

(** The scan leaves the board as it found it. *)
Lemma hasConflicts_from_spec (b : Board) (ps : list (nat * nat)) :
  Ocr.hasConflicts_from ps b = (existsb (conflict_at b) ps, b).
Proof.
  induction ps as [|[row col] ps IH]; simpl; auto.
  unfold conflict_at at 1. simpl.
  destruct (cell b row col) as [num|] eqn:E; auto.
  destruct (Z.eqb_spec num 0) as [->|Hn]; simpl; auto.
  rewrite (set_cell_restore b row col 0 num E).
  destruct (Ocr.isValidMove (set_cell b row col 0) row col num); simpl; auto.
Qed.

Definition sees_b (r c r' c' : nat) : bool :=
  (r =? r') || (c =? c') || ((r / 3 =? r' / 3) && (c / 3 =? c' / 3)).

Lemma sees_b_iff (r c r' c' : nat) : sees_b r c r' c' = true <-> sees r c r' c'.
Proof.
  unfold sees_b, sees, same_box.
  rewrite !orb_true_iff, andb_true_iff, !Nat.eqb_eq. tauto.
Qed.

Lemma forallb_false_exists {T : Type} (f : T -> bool) (l : list T) :
  forallb f l = false -> exists x, In x l /\ f x = false.
Proof.
  induction l as [|x l IH]; simpl; [discriminate|].
  destruct (f x) eqn:E; simpl.
  - intros H. destruct (IH H) as (y & Hy & Hf). eauto.
  - intros _. eauto.
Qed.

(** A property of the 81 cells that fails somewhere fails at a cell one can name. *)
Lemma cells_counterexample (f : nat -> nat -> bool) :
  ~ (forall r c, r < 9 -> c < 9 -> f r c = true) ->
  exists r c, r < 9 /\ c < 9 /\ f r c = false.
Proof.
  intros H.
  destruct (forallb (fun p => f (fst p) (snd p)) all_positions) eqn:E.
  - exfalso. apply H. intros r c Hr Hc.
    rewrite forallb_forall in E. apply (E (r, c)). apply in_all_positions; auto.
  - apply forallb_false_exists in E. destruct E as ([r c] & Hin & Hf).
    apply in_all_positions in Hin. exists r, c. tauto.
Qed.

Lemma conflict_at_true_iff (b : Board) (r c : nat) :
  r < 9 -> c < 9 ->
  (conflict_at b (r, c) = true <->
   exists d r' c', cell b r c = Some d /\ d <> 0%Z /\ r' < 9 /\ c' < 9
                   /\ peer r c r' c' /\ cell b r' c' = Some d).
Proof.
  intros Hr Hc. unfold conflict_at. simpl. split.
  - destruct (cell b r c) as [num|] eqn:E; [|discriminate].
    rewrite andb_true_iff, !negb_true_iff. intros [Hnz Hv].
    apply Z.eqb_neq in Hnz.
    destruct (cells_counterexample
                (fun r' c' => negb (sees_b r c r' c' && cell_is (set_cell b r c 0) r' c' num)))
      as (r' & c' & Hr' & Hc' & Hf).
    { intros H.
      assert (Ocr.isValidMove (set_cell b r c 0) r c num = true); [|congruence].
      apply ocr_isValidMove_true_iff; auto.
      intros r' c' Hr' Hc' Hsees. apply cell_is_false.
      specialize (H r' c' Hr' Hc'). apply sees_b_iff in Hsees. rewrite Hsees in H.
      simpl in H. destruct (cell_is (set_cell b r c 0) r' c' num); auto. }
    apply negb_false_iff, andb_true_iff in Hf. destruct Hf as [Hs Hcell].
    apply sees_b_iff in Hs. apply cell_is_true in Hcell.
    assert (Hne : (r, c) <> (r', c')).
    { intros Heq. inversion Heq; subst.
      rewrite (cell_set_cell_eq b r' c' 0 num E) in Hcell. congruence. }
    rewrite cell_set_cell_neq in Hcell by auto.
    exists num, r', c'. repeat split; auto.
  - intros (d & r' & c' & Hd & Hnz & Hr' & Hc' & [Hne Hsees] & Hd').
    rewrite Hd. rewrite andb_true_iff, !negb_true_iff. split.
    + apply Z.eqb_neq; auto.
    + destruct (Ocr.isValidMove (set_cell b r c 0) r c d) eqn:Ev; auto.
      exfalso.
      pose proof (proj1 (ocr_isValidMove_true_iff (set_cell b r c 0) r c d Hr Hc) Ev) as Ev'.
      apply (Ev' r' c' Hr' Hc' Hsees).
      rewrite cell_set_cell_neq; auto.
Qed.

Lemma hasConflicts_true_iff (b : Board) :
  fst (Ocr.hasConflicts b) = true <-> conflicting b.
Proof.
  unfold Ocr.hasConflicts. rewrite hasConflicts_from_spec. cbn [fst].
  rewrite existsb_exists. split.
  - intros ([r c] & Hin & H). apply in_all_positions in Hin.
    apply conflict_at_true_iff in H; try tauto.
    destruct H as (d & r' & c' & H). exists r, c, r', c', d. tauto.
  - intros (r & c & r' & c' & d & H). exists (r, c). split.
    + apply in_all_positions. tauto.
    + apply conflict_at_true_iff; try tauto. exists d, r', c'. tauto.
Qed.

Lemma hasConflicts_board (b : Board) : snd (Ocr.hasConflicts b) = b.
Proof. unfold Ocr.hasConflicts. rewrite hasConflicts_from_spec. reflexivity. Qed.

Lemma structure_ok_iff (b : Board) : Ocr.structure_ok b = true <-> grid_shape b.
Proof.
  unfold Ocr.structure_ok, grid_shape.
  rewrite andb_true_iff, Nat.eqb_eq, forallb_forall, Forall_forall.
  split; intros [H1 H2]; split; auto; intros x Hx; apply Nat.eqb_eq; auto.
Qed.

Lemma cell_In (b : Board) (row col : nat) (v : Z) :
  cell b row col = Some v -> exists r, In r b /\ In v r.
Proof.
  unfold cell. destruct (nth_error b row) as [r|] eqn:E; [|discriminate].
  intros H. exists r. split; eapply nth_error_In; eauto.
Qed.

(** Every cell is a digit or empty. *)
Definition digit_cells (b : Board) : Prop :=
  Forall (Forall (fun v => 0 <= v <= 9)%Z) b.

Lemma numbers_ok_digit_cells (b : Board) : digit_cells b -> Ocr.numbers_ok b = true.
Proof.
  intros H. unfold Ocr.numbers_ok. apply forallb_forall. intros [r c] _. simpl.
  destruct (cell b r c) as [v|] eqn:E; auto.
  apply cell_In in E. destruct E as (row & Hrow & Hv).
  unfold digit_cells in H. rewrite Forall_forall in H. specialize (H _ Hrow).
  rewrite Forall_forall in H. specialize (H _ Hv).
  apply negb_true_iff, orb_false_iff.
  split; [apply Z.ltb_ge | rewrite Z.gtb_ltb; apply Z.ltb_ge]; lia.
Qed.


Definition fresh_world : Ocr.World := Ocr.mkWorld [] [].



(** C10. For a well-formed grid of digits without conflict that the solver
    can solve, [validateExtractedPuzzle] answers [isValid = true] and
    [hasMultipleSolutions = false], whatever the number of completions of the
    grid: its [countSolutions] is the constant 1. *)
Theorem validate_never_reports_multiple (b : Board) (w : Ocr.World) (sol : Board) :
  grid_shape b -> digit_cells b -> ~ conflicting b -> solveSudoku b = Some sol ->
  Ocr.countSolutions b = 1%Z
  /\ Ocr.isValid (fst (fst (Ocr.validateExtractedPuzzle b w))) = true
  /\ Ocr.hasMultipleSolutions (fst (fst (Ocr.validateExtractedPuzzle b w))) = false
  /\ Ocr.v_solution (fst (fst (Ocr.validateExtractedPuzzle b w))) = Some sol.
Proof.
  intros Hshape Hdig Hconf Hsol. split; [reflexivity|].
  unfold Ocr.validateExtractedPuzzle.
  rewrite (proj2 (structure_ok_iff b) Hshape), (numbers_ok_digit_cells b Hdig). cbn [negb].
  pose proof (hasConflicts_true_iff b) as Hc.
  pose proof (hasConflicts_board b) as Hb.
  destruct (Ocr.hasConflicts b) as [conflicts b1]. simpl in Hc, Hb. subst b1.
  destruct conflicts; [exfalso; apply Hconf, Hc; reflexivity|].
  destruct (Ocr.checkForDuplicate b w) as [dup w1].
  unfold Ocr.call_solveSudoku. rewrite Hsol. repeat split.
Qed.

(** ** The empty grid *)

Definition first_solution : Board :=
  [[1; 2; 3; 4; 5; 6; 7; 8; 9];
   [4; 5; 6; 7; 8; 9; 1; 2; 3];
   [7; 8; 9; 1; 2; 3; 4; 5; 6];
   [2; 1; 4; 3; 6; 5; 8; 9; 7];
   [3; 6; 5; 8; 9; 7; 2; 1; 4];
   [8; 9; 7; 2; 1; 4; 3; 6; 5];
   [5; 3; 1; 6; 4; 2; 9; 7; 8];
   [6; 4; 2; 9; 7; 8; 5; 3; 1];
   [9; 7; 8; 5; 3; 1; 6; 4; 2]]%Z.

Definition second_solution : Board :=
  [[1; 2; 3; 4; 5; 6; 7; 8; 9];
   [4; 5; 6; 7; 8; 9; 1; 2; 3];
   [7; 8; 9; 1; 2; 3; 4; 5; 6];
   [2; 1; 4; 3; 6; 5; 8; 9; 7];
   [3; 6; 5; 8; 9; 7; 2; 1; 4];
   [8; 9; 7; 2; 1; 4; 3; 6; 5];
   [5; 3; 1; 6; 4; 2; 9; 7; 8];
   [6; 4; 8; 9; 7; 1; 5; 3; 2];
   [9; 7; 2; 5; 3; 8; 6; 4; 1]]%Z.

Lemma emptyBoard_shape : grid_shape emptyBoard.
Proof. split; [reflexivity | repeat constructor]. Qed.

Lemma emptyBoard_cell (r c : nat) (v : Z) : cell emptyBoard r c = Some v -> v = 0%Z.
Proof.
  intros H. apply cell_In in H. destruct H as (row & Hrow & Hv).
  apply repeat_spec in Hrow. subst row. apply repeat_spec in Hv. auto.
Qed.

Lemma emptyBoard_digit_cells : digit_cells emptyBoard.
Proof. repeat constructor; lia. Qed.

Lemma emptyBoard_not_conflicting : ~ conflicting emptyBoard.
Proof.
  intros (r & c & r' & c' & d & _ & _ & _ & _ & _ & Hd & H & _).
  apply emptyBoard_cell in H. contradiction.
Qed.

Lemma solveSudoku_emptyBoard : solveSudoku emptyBoard = Some first_solution.
Proof. vm_compute. reflexivity. Qed.

(** C7. Counting the solutions of the empty grid with limit 2 comes to an end
    within the fuel of the search and leaves exactly two solutions in the
    accumulator, the first two complete grids of the search; the board is
    handed back empty. *)
Theorem count_empty_grid_limit_two :
  countSolutionsLimited search_fuel emptyBoard [] 2
  = Some (emptyBoard, [first_solution; second_solution])
  /\ length [first_solution; second_solution] = 2
  /\ first_solution <> second_solution
  /\ validateSudoku first_solution = true
  /\ validateSudoku second_solution = true
  /\ hasUniqueSolution emptyBoard = false.
Proof.
  repeat split; try (vm_compute; reflexivity).
  discriminate.
Qed.

Lemma validate_never_reports_multiple_witness :
  Ocr.countSolutions emptyBoard = 1%Z
  /\ Ocr.isValid (fst (fst (Ocr.validateExtractedPuzzle emptyBoard fresh_world))) = true
  /\ Ocr.hasMultipleSolutions
       (fst (fst (Ocr.validateExtractedPuzzle emptyBoard fresh_world))) = false
  /\ Ocr.v_solution (fst (fst (Ocr.validateExtractedPuzzle emptyBoard fresh_world)))
     = Some first_solution.
Proof.
  apply (validate_never_reports_multiple emptyBoard fresh_world first_solution).
  - exact emptyBoard_shape.
  - exact emptyBoard_digit_cells.
  - exact emptyBoard_not_conflicting.
  - exact solveSudoku_emptyBoard.
Defined.

(** ** The fingerprint, as the specification words it

    The digits of the 81 cells in row-major order, one character each, folded
    through [h := h * 31 + charCode] with [h] wrapped to a signed 32-bit
    integer at every step, from [h = 0]; the result in decimal. *)

Module Fingerprint.
Import String Ascii.

(** The signed 32-bit integer congruent to [z] modulo 2^32. *)
Definition wrap32 (z : Z) : Z :=
  let m := (z mod 4294967296)%Z in
  if (m <? 2147483648)%Z then m else (m - 4294967296)%Z.

(** The character of a digit: ['0'] is 48. *)
Definition digit_char (d : Z) : ascii := ascii_of_N (48 + Z.to_N d).

Definition digit_string (grid : Board) : string :=
  string_of_list_ascii (map digit_char (List.concat grid)).

Definition rolling_hash (s : string) : Z :=
  fold_left (fun h c => wrap32 (h * 31 + Z.of_N (N_of_ascii c)))
    (list_ascii_of_string s) 0%Z.

Definition fingerprint (grid : Board) : string :=
  Hash.number_to_string (rolling_hash (digit_string grid)).
End Fingerprint.

Lemma toInt32_wrap32 (z : Z) : Hash.toInt32 z = Fingerprint.wrap32 z.
Proof.
  unfold Hash.toInt32, Fingerprint.wrap32.
  change (2 ^ 31)%Z with 2147483648%Z. change (2 ^ 32)%Z with 4294967296%Z.
  cbv zeta. destruct (Z.ltb_spec (z mod 4294967296) 2147483648);
    Z.to_euclidean_division_equations; lia.
Qed.

Lemma wrap32_cong (a b : Z) :
  (a mod 4294967296 = b mod 4294967296)%Z -> Fingerprint.wrap32 a = Fingerprint.wrap32 b.
Proof. unfold Fingerprint.wrap32. intros ->. reflexivity. Qed.

Lemma wrap32_mod (z : Z) : (Fingerprint.wrap32 z mod 4294967296 = z mod 4294967296)%Z.
Proof.
  unfold Fingerprint.wrap32. cbv zeta.
  destruct (Z.ltb_spec (z mod 4294967296) 2147483648);
    Z.to_euclidean_division_equations; lia.
Qed.

Lemma wrap32_idem (z : Z) : Fingerprint.wrap32 (Fingerprint.wrap32 z) = Fingerprint.wrap32 z.
Proof. apply wrap32_cong, wrap32_mod. Qed.

(** One turn of the loop of [createPuzzleHash] is one step of the rolling hash. *)
Lemma hash_step_wrap32 (h c : Z) :
  Hash.hash_step h c = Fingerprint.wrap32 (h * 31 + c).
Proof.
  unfold Hash.hash_step, Hash.and32, Hash.shl32. cbv zeta.
  rewrite Z.land_diag, Z.shiftl_mul_pow2 by lia.
  rewrite !toInt32_wrap32, wrap32_idem.
  apply wrap32_cong.
  change (2 ^ 5)%Z with 32%Z.
  pose proof (wrap32_mod (Fingerprint.wrap32 h * 32)) as H1.
  pose proof (wrap32_mod h) as H2.
  rewrite <- (Zplus_mod_idemp_l (_ - h)), <- (Zminus_mod_idemp_l _ h), H1.
  rewrite <- (Zmult_mod_idemp_l (Fingerprint.wrap32 h)), H2.
  rewrite Zmult_mod_idemp_l, Zminus_mod_idemp_l, Zplus_mod_idemp_l.
  f_equal. lia.
Qed.

Lemma string_concat_empty (ls : list String.string) :
  String.concat String.EmptyString ls = fold_right String.append String.EmptyString ls.
Proof.
  induction ls as [|x ls IH]; simpl; auto.
  destruct ls as [|y ls].
  - simpl. induction x; simpl; congruence.
  - rewrite <- IH. reflexivity.
Qed.

Lemma list_ascii_of_string_app (s t : String.string) :
  String.list_ascii_of_string (String.append s t)
  = String.list_ascii_of_string s ++ String.list_ascii_of_string t.
Proof. induction s; simpl; congruence. Qed.

Lemma number_to_string_digit (d : Z) :
  (0 <= d <= 9)%Z ->
  Hash.number_to_string d = String.String (Fingerprint.digit_char d) String.EmptyString.
Proof.
  intros H.
  assert (Hd : (d = 0 \/ d = 1 \/ d = 2 \/ d = 3 \/ d = 4 \/ d = 5 \/ d = 6 \/ d = 7
                \/ d = 8 \/ d = 9)%Z) by lia.
  repeat (destruct Hd as [->|Hd]; [reflexivity|]). subst. reflexivity.
Qed.

Lemma boardString_digits (grid : Board) :
  digit_cells grid ->
  String.list_ascii_of_string (Hash.boardString grid)
  = map Fingerprint.digit_char (concat grid).
Proof.
  unfold Hash.boardString, digit_cells. rewrite string_concat_empty.
  induction 1 as [|row rows Hrow Hrows IH]; simpl; auto.
  rewrite list_ascii_of_string_app, IH, map_app. f_equal.
  rewrite string_concat_empty. clear - Hrow.
  induction Hrow as [|d ds Hd Hds IH]; simpl; auto.
  rewrite (number_to_string_digit d Hd). simpl. congruence.
Qed.

Lemma grid_shape_cells (grid : Board) : grid_shape grid -> length (concat grid) = 81.
Proof.
  intros [Hl Hr].
  assert (H : forall n (g : Board), Forall (fun r => length r = n) g ->
            length (concat g) = length g * n).
  { intros n g. induction 1 as [|r g Hr' _ IH]; simpl; auto.
    rewrite length_app, IH, Hr'. reflexivity. }
  rewrite (H 9 grid Hr), Hl. reflexivity.
Qed.

Lemma fold_left_map_ext {A B C : Type} (f : A -> C -> A) (g : A -> B -> A) (k : B -> C) :
  (forall a b, f a (k b) = g a b) ->
  forall l a, fold_left f (map k l) a = fold_left g l a.
Proof.
  intros H l. induction l as [|x l IH]; intros a; [reflexivity|].
  cbn [map fold_left]. rewrite H. apply IH.
Qed.

Lemma fold_hash_step (cs : list Ascii.ascii) (h : Z) :
  fold_left Hash.hash_step (map (fun c => Z.of_N (Ascii.N_of_ascii c)) cs) h
  = fold_left (fun h c => Fingerprint.wrap32 (h * 31 + Z.of_N (Ascii.N_of_ascii c))) cs h.
Proof.
  apply fold_left_map_ext. intros a b. apply hash_step_wrap32.
Qed.

(** C9. For a 9x9 grid of digits 0-9, [createPuzzleHash] is the decimal string
    of the rolling hash [h := h * 31 + charCode], wrapped to 32 signed bits at
    every step from [h = 0], of the 81 digit characters of the grid in row-major
    order. Being a function of the grid, it gives equal grids equal strings. *)
Theorem createPuzzleHash_is_fingerprint (grid : Board) :
  grid_shape grid -> digit_cells grid ->
  String.length (Fingerprint.digit_string grid) = 81
  /\ Hash.boardString grid = Fingerprint.digit_string grid
  /\ Hash.createPuzzleHash grid = Fingerprint.fingerprint grid.
Proof.
  intros Hshape Hdig.
  assert (Hs : Hash.boardString grid = Fingerprint.digit_string grid).
  { unfold Fingerprint.digit_string. rewrite <- (boardString_digits grid Hdig).
    symmetry. apply String.string_of_list_ascii_of_string. }
  repeat split; auto.
  - unfold Fingerprint.digit_string.
    rewrite <- (grid_shape_cells grid Hshape), <- (length_map Fingerprint.digit_char).
    generalize (map Fingerprint.digit_char (concat grid)). intros l.
    induction l as [|a l IH]; simpl; congruence.
  - unfold Hash.createPuzzleHash, Fingerprint.fingerprint, Fingerprint.rolling_hash.
    rewrite <- Hs. unfold Hash.charCodes. rewrite fold_hash_step. reflexivity.
Qed.

Definition sample_board : Board :=
  [[5; 3; 0; 0; 7; 0; 0; 0; 0];
   [6; 0; 0; 1; 9; 5; 0; 0; 0];
   [0; 9; 8; 0; 0; 0; 0; 6; 0];
   [8; 0; 0; 0; 6; 0; 0; 0; 3];
   [4; 0; 0; 8; 0; 3; 0; 0; 1];
   [7; 0; 0; 0; 2; 0; 0; 0; 6];
   [0; 6; 0; 0; 0; 0; 2; 8; 0];
   [0; 0; 0; 4; 1; 9; 0; 0; 5];
   [0; 0; 0; 0; 8; 0; 0; 7; 9]]%Z.

Lemma createPuzzleHash_is_fingerprint_witness :
  String.length (Fingerprint.digit_string sample_board) = 81
  /\ Hash.boardString sample_board = Fingerprint.digit_string sample_board
  /\ Hash.createPuzzleHash sample_board = Fingerprint.fingerprint sample_board.
Proof.
  apply (createPuzzleHash_is_fingerprint sample_board).
  - split; [reflexivity | repeat constructor].
  - repeat constructor; lia.
Defined.

(** ** The solver over the store

    A grid owns its rows when their addresses are allocated and pairwise
    different.  On such a grid the solver over the store does to the contents
    what [solveBacktrack] does to a board, and touches no other array. *)

Definition owns (h : Store.Heap) (g : Store.Grid) : Prop :=
  NoDup g /\ Forall (fun a => a < length h) g.

Lemma store_cell_deref (h : Store.Heap) (g : Store.Grid) (row col : nat) :
  Forall (fun a => a < length h) g ->
  Store.cell h g row col = cell (Store.deref h g) row col.
Proof.
  intros Hv. unfold Store.cell, cell, Store.deref.
  rewrite nth_error_map.
  destruct (nth_error g row) as [a|] eqn:E; simpl; auto.
  rewrite Forall_forall in Hv. specialize (Hv a (nth_error_In _ _ E)).
  rewrite (nth_error_nth' h [] Hv). reflexivity.
Qed.

Lemma store_cell_is_deref (h : Store.Heap) (g : Store.Grid) (row col : nat) (num : Z) :
  Forall (fun a => a < length h) g ->
  Store.cell_is h g row col num = cell_is (Store.deref h g) row col num.
Proof.
  intros Hv. unfold Store.cell_is, cell_is. rewrite store_cell_deref; auto.
Qed.

Lemma forallb_pointwise {T : Type} (f f' : T -> bool) (l : list T) :
  (forall x, f x = f' x) -> forallb f l = forallb f' l.
Proof.
  intros H. induction l as [|x l IH]; simpl; [reflexivity|]. rewrite H, IH. reflexivity.
Qed.

Lemma find_pointwise {T : Type} (f f' : T -> bool) (l : list T) :
  (forall x, f x = f' x) -> find f l = find f' l.
Proof.
  intros H. induction l as [|x l IH]; simpl; [reflexivity|]. rewrite H, IH. reflexivity.
Qed.

Lemma store_isValidMove_deref (h : Store.Heap) (g : Store.Grid) (row col : nat) (num : Z) :
  Forall (fun a => a < length h) g ->
  Store.isValidMove h g row col num = isValidMove (Store.deref h g) row col num.
Proof.
  intros Hv. unfold Store.isValidMove, isValidMove. cbv zeta.
  f_equal; [f_equal|]; apply forallb_pointwise; intros x;
    try (rewrite store_cell_is_deref by auto; reflexivity).
  apply forallb_pointwise; intros y. rewrite store_cell_is_deref by auto; reflexivity.
Qed.

Lemma store_findEmpty_deref (h : Store.Heap) (g : Store.Grid) :
  Forall (fun a => a < length h) g ->
  Store.findEmpty h g = findEmpty (Store.deref h g).
Proof.
  intros Hv. unfold Store.findEmpty, findEmpty.
  apply find_pointwise. intros p. apply store_cell_is_deref; auto.
Qed.

Lemma store_set_cell_length (h : Store.Heap) (g : Store.Grid) (row col : nat) (v : Z) :
  length (Store.set_cell h g row col v) = length h.
Proof.
  unfold Store.set_cell.
  destruct (nth_error g row); auto. destruct (nth_error h n); auto.
  apply set_nth_length.
Qed.

(** A write goes to a row of the grid: the other arrays stay as they are. *)
Lemma store_set_cell_frame (h : Store.Heap) (g : Store.Grid) (row col : nat) (v : Z) (a : nat) :
  ~ In a g -> nth_error (Store.set_cell h g row col v) a = nth_error h a.
Proof.
  intros Hn. unfold Store.set_cell.
  destruct (nth_error g row) as [a'|] eqn:E; auto.
  destruct (nth_error h a') as [r|]; auto.
  apply nth_error_set_nth_neq. intros ->. apply Hn. eapply nth_error_In; eauto.
Qed.

Lemma nth_set_nth_eq {T : Type} (i : nat) (v d : T) (l : list T) :
  i < length l -> nth i (set_nth i v l) d = v.
Proof.
  intros H. apply nth_error_nth. apply nth_error_set_nth_eq; auto.
Qed.

Lemma nth_set_nth_neq {T : Type} (i j : nat) (v d : T) (l : list T) :
  i <> j -> nth j (set_nth i v l) d = nth j l d.
Proof.
  revert i j; induction l as [|x l IH]; intros [|i] [|j] H; simpl; auto.
  congruence.
Qed.

Lemma map_set_nth_NoDup (h : Store.Heap) (g : Store.Grid) (row a : nat) (r : list Z) :
  NoDup g -> nth_error g row = Some a -> a < length h ->
  map (fun x => nth x (set_nth a r h) []) g
  = set_nth row r (map (fun x => nth x h []) g).
Proof.
  revert row. induction g as [|x g IH]; intros row Hnd Hrow Ha; [destruct row; discriminate|].
  inversion Hnd as [|? ? Hx Hnd']; subst.
  destruct row as [|row]; simpl in *.
  - inversion Hrow; subst. rewrite nth_set_nth_eq by auto. f_equal.
    apply map_ext_in. intros y Hy. apply nth_set_nth_neq. intros ->. contradiction.
  - rewrite (IH row Hnd' Hrow Ha). f_equal.
    apply nth_set_nth_neq. intros ->. apply Hx. eapply nth_error_In; eauto.
Qed.

Lemma store_set_cell_deref (h : Store.Heap) (g : Store.Grid) (row col : nat) (v : Z) :
  owns h g ->
  Store.deref (Store.set_cell h g row col v) g = set_cell (Store.deref h g) row col v.
Proof.
  intros [Hnd Hv]. unfold Store.set_cell, set_cell, Store.deref.
  rewrite nth_error_map.
  destruct (nth_error g row) as [a|] eqn:E; simpl; auto.
  assert (Ha : a < length h).
  { rewrite Forall_forall in Hv. apply Hv. eapply nth_error_In; eauto. }
  rewrite (nth_error_nth' h [] Ha).
  apply map_set_nth_NoDup; auto.
Qed.

Lemma store_set_cell_owns (h : Store.Heap) (g : Store.Grid) (row col : nat) (v : Z) :
  owns h g -> owns (Store.set_cell h g row col v) g.
Proof.
  intros [Hnd Hv]. split; auto. rewrite store_set_cell_length. auto.
Qed.

(** What relates a run over the store from [h] to a run over the contents. *)
Definition simulates (h : Store.Heap) (g : Store.Grid)
  (r : option (bool * Store.Heap)) (p : option (bool * Board)) : Prop :=
  match r, p with
  | Some (res, h'), Some (res', b') =>
    res = res' /\ Store.deref h' g = b' /\ owns h' g /\ length h' = length h
    /\ (forall a, ~ In a g -> nth_error h' a = nth_error h a)
  | None, None => True
  | _, _ => False
  end.

Lemma store_solve_try_sim (g : Store.Grid) (recS : Store.Heap -> option (bool * Store.Heap))
  (rec : Board -> option (bool * Board)) (row col : nat) :
  (forall h, owns h g -> simulates h g (recS h) (rec (Store.deref h g))) ->
  forall nums h, owns h g ->
  simulates h g (Store.solve_try recS g row col nums h)
    (solve_try rec row col nums (Store.deref h g)).
Proof.
  intros Hrec nums. induction nums as [|num rest IH]; intros h Ho.
  - cbn. repeat split; auto; apply Ho.
  - cbn [Store.solve_try solve_try].
    rewrite store_isValidMove_deref by apply Ho.
    destruct (isValidMove (Store.deref h g) row col num); [|apply IH; auto].
    pose proof (Hrec (Store.set_cell h g row col num) (store_set_cell_owns h g row col num Ho))
      as Hsim.
    rewrite store_set_cell_deref in Hsim by auto.
    unfold simulates in Hsim.
    destruct (recS (Store.set_cell h g row col num)) as [[res h']|];
      destruct (rec (set_cell (Store.deref h g) row col num)) as [[res' b']|];
      try contradiction; [|exact I].
    destruct Hsim as (<- & <- & Ho' & Hlen & Hframe).
    rewrite store_set_cell_length in Hlen.
    destruct res.
    + cbn. split; [reflexivity|]. split; [reflexivity|]. split; [exact Ho'|].
      split; [exact Hlen|].
      intros a Ha. rewrite Hframe by auto. apply store_set_cell_frame; auto.
    + rewrite <- store_set_cell_deref by auto.
      pose proof (IH (Store.set_cell h' g row col 0) (store_set_cell_owns h' g row col 0 Ho'))
        as Hsim.
      unfold simulates in *.
      destruct (Store.solve_try recS g row col rest (Store.set_cell h' g row col 0))
        as [[res2 h2]|];
        destruct (solve_try rec row col rest (Store.deref (Store.set_cell h' g row col 0) g))
          as [[res2' b2]|]; auto.
      destruct Hsim as (-> & <- & Ho2 & Hlen2 & Hframe2).
      rewrite store_set_cell_length in Hlen2.
      split; [reflexivity|]. split; [reflexivity|]. split; [exact Ho2|].
      split; [lia|].
      intros a Ha.
      rewrite Hframe2, store_set_cell_frame, Hframe, store_set_cell_frame; auto.
Qed.

Lemma store_solveBacktrack_sim (g : Store.Grid) (fuel : nat) : forall h,
  owns h g ->
  simulates h g (Store.solveBacktrack fuel h g) (solveBacktrack fuel (Store.deref h g)).
Proof.
  induction fuel as [|fuel IH]; intros h Ho; [exact I|].
  rewrite solveBacktrack_S. cbn [Store.solveBacktrack].
  rewrite store_findEmpty_deref by apply Ho.
  destruct (findEmpty (Store.deref h g)) as [[row col]|].
  - apply store_solve_try_sim; auto.
  - cbn. repeat split; auto; apply Ho.
Qed.

Lemma deref_fresh_rows (d : Board) : forall h : Store.Heap,
  Store.deref (h ++ d) (seq (length h) (length d)) = d.
Proof.
  unfold Store.deref. induction d as [|x d IH]; intros h; [reflexivity|].
  cbn [length seq map]. rewrite nth_middle. f_equal.
  replace (h ++ x :: d) with ((h ++ [x]) ++ d) by (rewrite <- app_assoc; reflexivity).
  replace (S (length h)) with (length (h ++ [x])) by (rewrite length_app; simpl; lia).
  apply IH.
Qed.

Lemma copy_board_owns (h : Store.Heap) (g : Store.Grid) :
  owns (fst (Store.copy_board h g)) (snd (Store.copy_board h g)).
Proof.
  unfold Store.copy_board, owns. cbn [fst snd]. split.
  - apply seq_NoDup.
  - apply Forall_forall. intros a Ha. apply in_seq in Ha.
    rewrite length_app. unfold Store.deref. rewrite length_map. lia.
Qed.

Lemma copy_board_deref (h : Store.Heap) (g : Store.Grid) :
  Store.deref (fst (Store.copy_board h g)) (snd (Store.copy_board h g)) = Store.deref h g.
Proof.
  unfold Store.copy_board. cbn [fst snd].
  rewrite <- (length_map (fun a => nth a h []) g).
  apply (deref_fresh_rows (Store.deref h g) h).
Qed.

Lemma firstn_unchanged (h h' : Store.Heap) :
  length h <= length h' ->
  (forall a, a < length h -> nth_error h' a = nth_error h a) ->
  firstn (length h) h' = h.
Proof.
  intros Hlen H. apply nth_error_ext. intros n.
  rewrite nth_error_firstn.
  destruct (Nat.ltb_spec n (length h)) as [Hlt|Hge]; auto.
  symmetry. apply nth_error_None. lia.
Qed.

Lemma deref_unchanged (h h' : Store.Heap) (g : Store.Grid) :
  firstn (length h) h' = h -> Forall (fun a => a < length h) g ->
  Store.deref h' g = Store.deref h g.
Proof.
  intros Hf Hv. unfold Store.deref. apply map_ext_in. intros a Ha.
  rewrite Forall_forall in Hv. specialize (Hv a Ha).
  pose proof (nth_error_firstn (length h) h' a) as Hn. rewrite Hf in Hn.
  apply Nat.ltb_lt in Hv. rewrite Hv in Hn.
  destruct (nth_error h a) as [x|] eqn:E.
  - rewrite (nth_error_nth h a [] E). apply nth_error_nth. auto.
  - apply nth_error_None in E. apply Nat.ltb_lt in Hv. lia.
Qed.

(** C6. Whatever the grid and the store, [solveSudoku] works on rows of its
    own: every array that existed before the call holds what it held, so the
    caller's grid reads as before, whether a solution or [null] comes back.
    The result is that of the solver on the contents of the grid, and a
    solution consists of rows allocated by the call. *)
Theorem solveSudoku_leaves_caller_grid (h : Store.Heap) (board : Store.Grid) :
  firstn (length h) (snd (Store.solveSudoku h board)) = h
  /\ (Forall (fun a => a < length h) board ->
      Store.deref (snd (Store.solveSudoku h board)) board = Store.deref h board)
  /\ option_map (Store.deref (snd (Store.solveSudoku h board)))
       (fst (Store.solveSudoku h board))
     = solveSudoku (Store.deref h board)
  /\ (forall sol, fst (Store.solveSudoku h board) = Some sol ->
      Forall (fun a => length h <= a) sol).
Proof.
  assert (Hmain :
    firstn (length h) (snd (Store.solveSudoku h board)) = h
    /\ option_map (Store.deref (snd (Store.solveSudoku h board)))
         (fst (Store.solveSudoku h board))
       = solveSudoku (Store.deref h board)
    /\ (forall sol, fst (Store.solveSudoku h board) = Some sol ->
        Forall (fun a => length h <= a) sol)).
  { unfold Store.solveSudoku, solveSudoku.
    pose proof (copy_board_owns h board) as Ho.
    pose proof (copy_board_deref h board) as Hd.
    rewrite copy_board_id.
    assert (Hnew : forall a, a < length h ->
              ~ In a (snd (Store.copy_board h board))
              /\ nth_error (fst (Store.copy_board h board)) a = nth_error h a).
    { intros a Ha. unfold Store.copy_board. cbn [fst snd]. split.
      - rewrite in_seq. lia.
      - apply nth_error_app1; auto. }
    assert (Hlen1 : length h <= length (fst (Store.copy_board h board))).
    { unfold Store.copy_board. cbn [fst]. rewrite length_app. lia. }
    assert (Hsol : Forall (fun a => length h <= a) (snd (Store.copy_board h board))).
    { unfold Store.copy_board. cbn [snd]. apply Forall_forall. intros a Ha.
      apply in_seq in Ha. lia. }
    destruct (Store.copy_board h board) as [h1 solution]. cbn [fst snd] in *.
    pose proof (store_solveBacktrack_sim solution search_fuel h1 Ho) as Hsim.
    rewrite Hd in Hsim. unfold simulates in Hsim.
    destruct (Store.solveBacktrack search_fuel h1 solution) as [[res h2]|];
      destruct (solveBacktrack search_fuel (Store.deref h board)) as [[res' b']|];
      try contradiction.
    - destruct Hsim as (<- & <- & Ho2 & Hlen2 & Hframe).
      assert (Hf : firstn (length h) h2 = h).
      { apply firstn_unchanged; [lia|]. intros a Ha.
        destruct (Hnew a Ha) as [Hnot Hsame]. rewrite Hframe; auto. }
      destruct res; cbn [fst snd option_map]; repeat split; auto.
      + intros sol Hs. inversion Hs; subst. auto.
      + intros sol Hs. discriminate.
    - cbn [fst snd option_map]. repeat split.
      + apply firstn_unchanged; auto. intros a Ha. apply Hnew; auto.
      + intros sol Hs. discriminate. }
  destruct Hmain as (H1 & H2 & H3). repeat split; auto.
  intros Hv. apply deref_unchanged; auto.
Qed.

(** ** The shuffle *)

Lemma swap_length {T : Type} (a : list T) (i j : nat) : length (swap a i j) = length a.
Proof.
  unfold swap. destruct (nth_error a i), (nth_error a j); auto.
  rewrite !set_nth_length. reflexivity.
Qed.

Lemma swap_Permutation {T : Type} (a : list T) (i j : nat) : Permutation a (swap a i j).
Proof.
  unfold swap.
  destruct (nth_error a i) as [x|] eqn:Ei; [|apply Permutation_refl].
  destruct (nth_error a j) as [y|] eqn:Ej; [|apply Permutation_refl].
  assert (Hi : i < length a) by (apply nth_error_Some; congruence).
  assert (Hj : j < length a) by (apply nth_error_Some; congruence).
  apply Permutation_nth_error. split.
  - rewrite !set_nth_length. reflexivity.
  - exists (fun n => if n =? i then j else if n =? j then i else n). split.
    + intros n m.
      destruct (Nat.eqb_spec n i), (Nat.eqb_spec m i),
        (Nat.eqb_spec n j), (Nat.eqb_spec m j); intros; subst; congruence.
    + intros n. destruct (Nat.eqb_spec n i) as [->|Hni].
      * rewrite nth_error_set_nth_eq by (rewrite set_nth_length; auto). auto.
      * rewrite nth_error_set_nth_neq by auto.
        destruct (Nat.eqb_spec n j) as [->|Hnj].
        -- rewrite nth_error_set_nth_eq by auto. auto.
        -- rewrite nth_error_set_nth_neq by auto. reflexivity.
Qed.

Lemma shuffle_loop_Permutation {T : Type} (i : nat) : forall (a : list T) (g : Rng),
  Permutation a (fst (shuffle_loop i a g)).
Proof.
  induction i as [|i IH]; intros a g; [apply Permutation_refl|].
  cbn [shuffle_loop]. destruct (random_index (S i + 1) g) as [j g'].
  eapply Permutation_trans; [apply (swap_Permutation a (S i) j) | apply IH].
Qed.

(** [shuffleArray] returns its argument in some order. *)
Lemma shuffleArray_Permutation {T : Type} (a : list T) (g : Rng) :
  Permutation a (fst (shuffleArray a g)).
Proof. apply shuffle_loop_Permutation. Qed.

(** ** Clue removal *)

(** The number of clues of a board, as the upload path computes it:
    [board.flat().filter((cell) => cell !== 0).length]. *)
Definition count_clues (b : Board) : nat :=
  length (filter (fun v => negb (v =? 0)%Z) (concat b)).

Definition clue (v : Z) : nat := if (v =? 0)%Z then 0 else 1.

Lemma count_set_nth (i : nat) (v old : Z) (l : list Z) :
  nth_error l i = Some old ->
  length (filter (fun v => negb (v =? 0)%Z) (set_nth i v l)) + clue old
  = length (filter (fun v => negb (v =? 0)%Z) l) + clue v.
Proof.
  revert i. induction l as [|x l IH]; intros [|i] H; simpl in *; try discriminate.
  - inversion H; subst. unfold clue.
    destruct (v =? 0)%Z, (old =? 0)%Z; simpl; lia.
  - specialize (IH i H). destruct (x =? 0)%Z; simpl; lia.
Qed.

Lemma count_clues_set_cell (b : Board) (row col : nat) (v old : Z) :
  cell b row col = Some old ->
  count_clues (set_cell b row col v) + clue old = count_clues b + clue v.
Proof.
  unfold cell, set_cell, count_clues.
  destruct (nth_error b row) as [r|] eqn:E; [|discriminate]. intros Hc.
  revert row E. induction b as [|x b IH]; intros [|row] E; simpl in *; try discriminate.
  - inversion E; subst. rewrite !filter_app, !length_app.
    pose proof (count_set_nth col v old r Hc). lia.
  - rewrite !filter_app, !length_app. specialize (IH row E). lia.
Qed.

(** Writing back what [read] returned restores the board, also where the cell
    does not exist (nothing was written then). *)
Lemma set_cell_None (b : Board) (row col : nat) (v : Z) :
  cell b row col = None -> set_cell b row col v = b.
Proof.
  unfold cell, set_cell. destruct (nth_error b row) as [r|] eqn:E; auto.
  intros H. apply set_nth_same. rewrite E. f_equal.
  apply nth_error_None in H. clear E. revert col H.
  induction r as [|x r IH]; intros [|col] H; simpl in *; auto; try lia.
  f_equal. apply IH. lia.
Qed.

Lemma set_cell_read_restore (b : Board) (row col : nat) (v : Z) :
  set_cell (set_cell b row col v) row col (read b row col) = b.
Proof.
  unfold read. destruct (cell b row col) as [old|] eqn:E.
  - apply set_cell_restore; auto.
  - rewrite (set_cell_None b row col v E). apply set_cell_None; auto.
Qed.

Ltac split_ands := repeat match goal with |- _ /\ _ => split end.

(** The board after the removal loop: a cell is as it was or cleared, the
    counter of removals stays below [toRemove] once it started below it,
    it bounds the number of clues lost, and uniqueness is kept. *)
Lemma removeClues_spec (ps : list (nat * nat)) (toRemove : Z) :
  forall (removed : Z) (b : Board),
  let b' := fst (removeClues ps toRemove removed b) in
  let removed' := snd (removeClues ps toRemove removed b) in
  (forall r c, cell b' r c = cell b r c
               \/ (cell b' r c = Some 0%Z /\ cell b r c <> None))
  /\ (removed <= removed')%Z
  /\ (removed' <= Z.max removed toRemove)%Z
  /\ (Z.of_nat (count_clues b) <= Z.of_nat (count_clues b') + (removed' - removed))%Z
  /\ (count_clues b' <= count_clues b)
  /\ (hasUniqueSolution b = true -> hasUniqueSolution b' = true)
  /\ (grid_shape b -> grid_shape b').
Proof.
  induction ps as [|[row col] ps IH]; intros removed b; cbn [removeClues].
  - cbv zeta. cbn [fst snd]. split_ands; intros; auto; try lia.
  - destruct (Z.ltb_spec removed toRemove) as [Hlt|Hge].
    2:{ cbv zeta. cbn [fst snd]. split_ands; intros; auto; try lia. }
    cbv zeta.
    assert (Hcount : count_clues (set_cell b row col 0) <= count_clues b
                     /\ count_clues b <= S (count_clues (set_cell b row col 0))).
    { destruct (cell b row col) as [old|] eqn:E.
      - pose proof (count_clues_set_cell b row col 0 old E) as H.
        unfold clue in H. simpl in H. destruct (old =? 0)%Z; lia.
      - rewrite (set_cell_None b row col 0 E). lia. }
    assert (Hcells : forall r c, cell (set_cell b row col 0) r c = cell b r c
               \/ (cell (set_cell b row col 0) r c = Some 0%Z /\ cell b r c <> None)).
    { intros r c. destruct (cell b row col) as [old|] eqn:E.
      - destruct (Nat.eq_dec r row) as [->|Hn1]; [destruct (Nat.eq_dec c col) as [->|Hn2]|].
        + right. rewrite (cell_set_cell_eq b row col 0 old E). split; congruence.
        + left. apply cell_set_cell_neq. congruence.
        + left. apply cell_set_cell_neq. congruence.
      - left. rewrite (set_cell_None b row col 0 E). reflexivity. }
    destruct (hasUniqueSolution (set_cell b row col 0)) eqn:Eu.
    + specialize (IH (removed + 1)%Z (set_cell b row col 0)). cbv zeta in IH.
      destruct IH as (H1 & H2 & H3 & H4 & H5 & H6 & H7).
      split_ands; try lia; auto.
      * intros r c. destruct (H1 r c) as [H|[H Hn]].
        -- rewrite H. apply Hcells.
        -- right. split; auto. destruct (Hcells r c) as [H'|[_ H']]; congruence.
      * intros Hs. apply H7, set_cell_shape; auto.
    + rewrite set_cell_read_restore. apply IH.
Qed.

Lemma createPuzzleFromSolution_board (sol : Board) (targetClues : Z) (g : Rng) :
  fst (createPuzzleFromSolution sol targetClues g)
  = fst (removeClues all_positions (81 - targetClues) 0 sol).
Proof.
  unfold createPuzzleFromSolution. cbv zeta. cbn [fst]. rewrite copy_board_id. reflexivity.
Qed.

(** ** The generator *)


(** One pass of the body of [generateSudoku]: the completed grid, the board
    left by the clue removal, and the random source after them. *)
Definition attempt (options : GenerationOptions) (g : Rng) : Board * Board * Rng :=
  let (solution, g1) := generateCompleteSudoku g in
  let (board, g2) := createPuzzleFromSolution solution (opt_clues options) g1 in
  (solution, board, g2).

Lemma generateSudoku_S (fuel : nat) (options : GenerationOptions) (g : Rng) :
  generateSudoku (S fuel) options g =
  let '(solution, board, g2) := attempt options g in
  if ensureUnique options && negb (hasUniqueSolution board) then
    generateSudoku fuel options g2
  else Some (mkPuzzle board solution (opt_difficulty options) (opt_clues options), g2).
Proof.
  cbn [generateSudoku]. unfold attempt.
  destruct (generateCompleteSudoku g) as [solution g1].
  destruct (createPuzzleFromSolution solution (opt_clues options) g1) as [board g2].
  reflexivity.
Qed.

(** A returned puzzle is the outcome of some attempt that passed the gate. *)
Lemma generateSudoku_returns (fuel : nat) (options : GenerationOptions) :
  forall (g : Rng) (p : Puzzle) (g' : Rng),
  generateSudoku fuel options g = Some (p, g') ->
  exists g0,
    attempt options g0 = (solution p, board p, g')
    /\ clues p = opt_clues options
    /\ difficulty p = opt_difficulty options
    /\ (ensureUnique options = true -> hasUniqueSolution (board p) = true).
Proof.
  induction fuel as [|fuel IH]; intros g p g' H; [discriminate|].
  rewrite generateSudoku_S in H.
  destruct (attempt options g) as [[sol b] g2] eqn:Ea.
  destruct (ensureUnique options && negb (hasUniqueSolution b)) eqn:Egate.
  - eapply IH; eauto.
  - inversion H; subst. exists g. cbn [solution board clues difficulty].
    split_ands; auto.
    intros Hu. rewrite Hu in Egate. cbn [andb] in Egate.
    apply negb_false_iff in Egate. auto.
Qed.

Definition zero_source : Rng := mkRng (fun _ => 0) 0.




(** The board of an attempt is what the removal loop leaves of the completed
    grid of that attempt. *)
Lemma attempt_board (options : GenerationOptions) (g : Rng) (sol b : Board) (g' : Rng) :
  attempt options g = (sol, b, g') ->
  sol = fst (generateCompleteSudoku g)
  /\ b = fst (removeClues all_positions (81 - opt_clues options) 0 sol).
Proof.
  unfold attempt. destruct (generateCompleteSudoku g) as [sol0 g1].
  destruct (createPuzzleFromSolution sol0 (opt_clues options) g1) as [b0 g2] eqn:E.
  intros H. inversion H; subst. split; [reflexivity|].
  rewrite <- createPuzzleFromSolution_board with (g := g1). rewrite E. reflexivity.
Qed.

Lemma generated_board_from_solution (fuel : nat) (options : GenerationOptions)
  (g g' : Rng) (p : Puzzle) :
  generateSudoku fuel options g = Some (p, g') ->
  board p = fst (removeClues all_positions (81 - opt_clues options) 0 (solution p))
  /\ exists g0, solution p = fst (generateCompleteSudoku g0).
Proof.
  intros H. apply generateSudoku_returns in H. destruct H as (g0 & Ha & _).
  apply attempt_board in Ha. destruct Ha as [Hs Hb]. split; [exact Hb|eauto].
Qed.

(** Every cell of a generated board holds the digit of the solution or is empty. *)
Lemma generated_board_cells (fuel : nat) (options : GenerationOptions)
  (g g' : Rng) (p : Puzzle) (r c : nat) (v : Z) :
  generateSudoku fuel options g = Some (p, g') ->
  cell (board p) r c = Some v -> v <> 0%Z -> cell (solution p) r c = Some v.
Proof.
  intros H Hc Hv. apply generated_board_from_solution in H. destruct H as [Hb _].
  pose proof (removeClues_spec all_positions (81 - opt_clues options) 0 (solution p)) as S.
  cbv zeta in S. rewrite <- Hb in S. destruct S as (S1 & _).
  destruct (S1 r c) as [E|[E _]]; congruence.
Qed.

(** The removal loop clears at most [81 - targetClues] cells, and none when
    that number is negative. *)
Lemma generated_board_removed (fuel : nat) (options : GenerationOptions)
  (g g' : Rng) (p : Puzzle) :
  generateSudoku fuel options g = Some (p, g') ->
  (Z.of_nat (count_clues (solution p)) - Z.of_nat (count_clues (board p))
   <= Z.max 0 (81 - opt_clues options))%Z
  /\ count_clues (board p) <= count_clues (solution p).
Proof.
  intros H. apply generated_board_from_solution in H. destruct H as [Hb _].
  pose proof (removeClues_spec all_positions (81 - opt_clues options) 0 (solution p)) as S.
  cbv zeta in S. rewrite <- Hb in S. destruct S as (_ & S2 & S3 & S4 & S5 & _).
  split; [lia|exact S5].
Qed.

Definition options_82 : GenerationOptions := mkOptions 82 medium true true.

(** C2. The [clues] field of a generated puzzle is the requested target
    [options.clues], whatever the board holds: with a target of 82 the field
    says 82 and the board has 81 clues. The field is not a count of the
    non-zero cells. *)
Theorem clues_field_is_requested_target :
  (forall fuel options g p g',
     generateSudoku fuel options g = Some (p, g') -> clues p = opt_clues options)
  /\ exists p g',
       generateSudoku 1 options_82 zero_source = Some (p, g')
       /\ clues p = 82%Z
       /\ count_clues (board p) = 81.
Proof.
  split.
  - intros fuel options g p g' H. apply generateSudoku_returns in H.
    destruct H as (g0 & _ & H & _). exact H.
  - eexists. eexists. split; [vm_compute; reflexivity|]. split; vm_compute; reflexivity.
Qed.

(** ** The retry loop *)

(** [generateSudoku] with the uniqueness test it calls taken as a parameter:
    the retry loop on its own. *)
Section RetryLoop.
Variable unique_test : Board -> bool.

Fixpoint generateSudokuWith (fuel : nat) (options : GenerationOptions) (g : Rng)
  : option (Puzzle * Rng) :=
  match fuel with
  | O => None
  | S fuel' =>
    let (solution, g1) := generateCompleteSudoku g in
    let (board, g2) := createPuzzleFromSolution solution (opt_clues options) g1 in
    if ensureUnique options && negb (unique_test board) then
      generateSudokuWith fuel' options g2
    else
      Some (mkPuzzle board solution (opt_difficulty options) (opt_clues options), g2)
  end.
End RetryLoop.

Lemma generateSudokuWith_engine (fuel : nat) (options : GenerationOptions) :
  forall g, generateSudokuWith hasUniqueSolution fuel options g = generateSudoku fuel options g.
Proof.
  induction fuel as [|fuel IH]; intros g; [reflexivity|].
  cbn [generateSudokuWith generateSudoku].
  destruct (generateCompleteSudoku g) as [sol g1].
  destruct (createPuzzleFromSolution sol (opt_clues options) g1) as [b g2].
  rewrite IH. reflexivity.
Qed.


(** The loop of [generateSudoku] over an attempt [try] taken as given: what is
    said of it does not depend on what an attempt computes. *)
Section Attempts.
Variable options : GenerationOptions.
Variable try : Rng -> Board * Board * Rng.




End Attempts.






(** C4 (as stated, refuted). With a target of 82 clues the board returned under
    [ensureUnique] has 81 clues, fewer than the target. *)
Lemma clue_floor_fails_above_81 :
  exists p g',
    generateSudoku 1 options_82 zero_source = Some (p, g')
    /\ ensureUnique options_82 = true
    /\ (Z.of_nat (count_clues (board p)) < opt_clues options_82)%Z.
Proof.
  eexists. eexists. split; [vm_compute; reflexivity|]. split; vm_compute; reflexivity.
Qed.
